(** * LiveSession: realtime duplex audio session of the Void note application

    Shallow embedding of [components/LiveSession.tsx]: the PCM sample codec
    ([floatTo16BitPCM], [decodeAudio]), the playback scheduler ([playAudio])
    and the session life cycle (the [useEffect] body with its transport
    callbacks and its cleanup).

    Numbers.  The source computes on IEEE numbers.  Samples and clock times
    are modelled as rationals [Q].  For the codec this is exact and not an
    approximation: a Float32 sample has a 24 bit significand, so its product
    with [0x8000] or [0x7FFF] is computed without rounding in double
    precision, the conversion to Int16 truncates, and [v / 32768.0] for a
    16 bit [v] is again a Float32.  NaN and the infinities are outside the
    model.  For the scheduler only [Math.max] and one addition per chunk are
    used, and every statement below follows the order of the additions made
    by the code. *)

From Stdlib Require Import String Ascii ZArith QArith Qminmax Qabs Qround List Bool Lia Lqa.
Import ListNotations.

Local Open Scope Z_scope.

(** ** Host values *)

(** Exceptions raised by the host functions the component calls. *)
Inductive JsError : Type :=
| InvalidCharacterError   (* atob on text that is not base64 *)
| RangeError              (* new Int16Array(buffer) on an odd byte length *)
| NotSupportedError.      (* ctx.createBuffer with zero frames *)

Inductive result (A : Type) : Type :=
| Ok (a : A)
| Throw (e : JsError).
Arguments Ok {A} a.
Arguments Throw {A} e.

(** ** SampleCodec *)

Module Codec.

(** [Math.max(-1, Math.min(1, x))] *)
Definition clamp (x : Q) : Q := Qmax (-1) (Qmin 1 x).

(** Truncation toward zero, the first step of the Int16 conversion. *)
Definition Qtrunc (q : Q) : Z := Z.quot (Qnum q) (Zpos (Qden q)).

(** Store of a number into an [Int16Array] slot (ECMAScript ToInt16):
    truncate, reduce modulo 2^16, read as two's complement. *)
Definition ToInt16 (q : Q) : Z :=
  let k := (Qtrunc q) mod 65536 in
  if 32768 <=? k then k - 65536 else k.

(** Body of the loop of [floatTo16BitPCM] for one sample. *)
Definition sample_to_int16 (x : Q) : Z :=
  let s := clamp x in
  ToInt16 (if Qlt_le_dec s 0 then s * 32768 else s * 32767)%Q.

(** [floatTo16BitPCM]: one Int16 slot per input sample. *)
Definition floatTo16BitPCM (float32Arr : list Q) : list Z :=
  map sample_to_int16 float32Arr.

(** The two bytes of an Int16 slot as [new Uint8Array(pcm16.buffer)] shows
    them: two's complement, low byte first (typed arrays use the byte order
    of the host, little-endian on every platform the component runs on). *)
Definition int16_bytes (v : Z) : list Z :=
  let u := v mod 65536 in
  [Z.land u 255; Z.shiftr u 8].

(** [new Uint8Array(pcm16.buffer)] *)
Definition Uint8Array_of_Int16Array (pcm16 : list Z) : list Z :=
  flat_map int16_bytes pcm16.

(** The PCM frame a capture block is turned into (lines 56-57, before the
    text encoding). *)
Definition encodePCM16 (samples : list Q) : list Z :=
  Uint8Array_of_Int16Array (floatTo16BitPCM samples).

(** Store into a [Uint8Array] slot. *)
Definition ToUint8 (c : Z) : Z := c mod 256.

(** An Int16 slot read from two bytes of the underlying buffer. *)
Definition int16_of_bytes (b0 b1 : Z) : Z :=
  let u := Z.lor b0 (Z.shiftl b1 8) in
  if 32768 <=? u then u - 65536 else u.

(** Slots of an Int16 view over a buffer of even length. *)
Fixpoint int16_slots (bytes : list Z) : list Z :=
  match bytes with
  | b0 :: b1 :: rest => int16_of_bytes b0 b1 :: int16_slots rest
  | _ => []
  end.

(** [new Int16Array(bytes.buffer)]: a RangeError unless the byte length is a
    multiple of the element size. *)
Definition Int16Array_of_buffer (bytes : list Z) : result (list Z) :=
  if Nat.even (length bytes) then Ok (int16_slots bytes) else Throw RangeError.

(** [float32[i] = pcm16[i] / 32768.0] *)
Definition int16_to_float (v : Z) : Q := (inject_Z v / 32768)%Q.

(** The PCM to float step of [decodeAudio] (lines 136-138). *)
Definition decodePCM16 (bytes : list Z) : result (list Q) :=
  match Int16Array_of_buffer bytes with
  | Ok pcm16 => Ok (map int16_to_float pcm16)
  | Throw e => Throw e
  end.

End Codec.

(** ** Text encoding of the host

    [btoa] and [atob] belong to the browser, not to the component; the
    session below takes them as parameters.  This module gives the standard
    base64 instance (with the forgiving decoder of [atob]) so that runs of
    the session can be evaluated on concrete messages. *)

Module Base64.

Definition alphabet : string :=
  "ABCDEFGHIJKLMNOPQRSTUVWXYZabcdefghijklmnopqrstuvwxyz0123456789+/"%string.

Definition digit (v : Z) : ascii :=
  match String.get (Z.to_nat v) alphabet with
  | Some c => c
  | None => "="%char
  end.

Definition value (c : ascii) : option Z :=
  let n := Z.of_N (N_of_ascii c) in
  if (65 <=? n) && (n <=? 90) then Some (n - 65)
  else if (97 <=? n) && (n <=? 122) then Some (n - 71)
  else if (48 <=? n) && (n <=? 57) then Some (n + 4)
  else if n =? 43 then Some 62
  else if n =? 47 then Some 63
  else None.

Fixpoint encode (bytes : list Z) : list ascii :=
  match bytes with
  | [] => []
  | [a] =>
      [digit (Z.shiftr a 2); digit (Z.shiftl (Z.land a 3) 4); "="; "="]%char
  | [a; b] =>
      [digit (Z.shiftr a 2);
       digit (Z.lor (Z.shiftl (Z.land a 3) 4) (Z.shiftr b 4));
       digit (Z.shiftl (Z.land b 15) 2); "="%char]
  | a :: b :: c :: rest =>
      digit (Z.shiftr a 2)
      :: digit (Z.lor (Z.shiftl (Z.land a 3) 4) (Z.shiftr b 4))
      :: digit (Z.lor (Z.shiftl (Z.land b 15) 2) (Z.shiftr c 6))
      :: digit (Z.land c 63)
      :: encode rest
  end.

Definition btoa (bytes : list Z) : string :=
  string_of_list_ascii (encode bytes).

Definition is_space (c : ascii) : bool :=
  let n := N_of_ascii c in
  (N.eqb n 9 || N.eqb n 10 || N.eqb n 12 || N.eqb n 13 || N.eqb n 32)%bool.

(** Drop up to two trailing padding characters of a text whose length is
    a multiple of four. *)
Definition strip_padding (l : list ascii) : list ascii :=
  if Nat.eqb (Nat.modulo (length l) 4) 0 then
    match rev l with
    | "="%char :: "="%char :: r => rev r
    | "="%char :: r => rev r
    | _ => l
    end
  else l.

Fixpoint sextets (l : list ascii) : option (list Z) :=
  match l with
  | [] => Some []
  | c :: r =>
      match value c, sextets r with
      | Some v, Some vs => Some (v :: vs)
      | _, _ => None
      end
  end.

Fixpoint decode (vs : list Z) : list Z :=
  match vs with
  | a :: b :: c :: d :: rest =>
      Z.lor (Z.shiftl a 2) (Z.shiftr b 4)
      :: Z.lor (Z.shiftl (Z.land b 15) 4) (Z.shiftr c 2)
      :: Z.lor (Z.shiftl (Z.land c 3) 6) d
      :: decode rest
  | [a; b; c] =>
      [Z.lor (Z.shiftl a 2) (Z.shiftr b 4);
       Z.lor (Z.shiftl (Z.land b 15) 4) (Z.shiftr c 2)]
  | [a; b] => [Z.lor (Z.shiftl a 2) (Z.shiftr b 4)]
  | _ => []
  end.

Definition atob (text : string) : option (list Z) :=
  let l := strip_padding (filter (fun c => negb (is_space c)) (list_ascii_of_string text)) in
  if Nat.eqb (Nat.modulo (length l) 4) 1 then None
  else
    match sextets l with
    | Some vs => Some (decode vs)
    | None => None
    end.

End Base64.

(** ** The session component *)

Module Session.

Import Codec.

(** JavaScript truthiness of an optional string ([undefined] and the empty
    string are falsy). *)
Definition truthy (o : option string) : bool :=
  match o with
  | Some s => negb (String.eqb s EmptyString)
  | None => false
  end.

(** [a || b] on an optional string with a string fallback. *)
Definition or_else (o : option string) (fallback : string) : string :=
  match o with
  | Some s => if truthy o then s else fallback
  | None => fallback
  end.

Definition nl : string := String (ascii_of_nat 10) EmptyString.
Definition indent : string := "                "%string.

Definition default_context : string :=
  "The user is drifting in the void with no specific active note."%string.

(** Text of the template literal before and after the interpolation
    (lines 40-45). *)
Definition instruction_head : string :=
  ("You are VOID, the digital abyss that stares back. The user is screaming into you. Be calm, infinite, and slightly cryptic but helpful."
   ++ nl ++ indent
   ++ nl ++ indent ++ "CONTEXT OF CURRENT SESSION:"
   ++ nl ++ indent)%string.

Definition instruction_tail : string :=
  (nl ++ indent
   ++ nl ++ indent ++ "Use this context to answer questions or generate ideas if asked.")%string.

Definition instruction (context : option string) : string :=
  (instruction_head ++ or_else context default_context ++ instruction_tail)%string.

(** Argument of [ai.live.connect] without the callbacks. *)
Record LiveConnectConfig : Type := {
  model : string;
  responseModalities : list string;
  voiceName : string;
  systemInstruction : string
}.

Definition connect_config (context : option string) : LiveConnectConfig := {|
  model := "gemini-2.5-flash-native-audio-preview-09-2025"%string;
  responseModalities := ["AUDIO"%string];
  voiceName := "Zephyr"%string;
  systemInstruction := instruction context
|}.

(** The [status] state of the component. *)
Inductive Status : Type := Connecting | Connected | Error | Closed.

(** [AudioContext.state], as far as the component drives it. *)
Inductive ContextState : Type := Running | ContextClosed.

Inductive WhichContext : Type := InputContext | OutputContext.

(** The transport as its own events report it. *)
Inductive Transport : Type :=
| NotConnected        (* [ai.live.connect] not called yet *)
| Opening             (* called, no [onopen] yet *)
| Open
| TransportClosed.    (* [onclose] delivered *)

(** [AudioBuffer] with one channel. *)
Record AudioBuffer : Type := {
  channelData : list Q;
  sampleRate : Z
}.

(** [buffer.duration] *)
Definition duration (b : AudioBuffer) : Q :=
  (inject_Z (Z.of_nat (length (channelData b))) / inject_Z (sampleRate b))%Q.

(** [ctx.createBuffer(1, length, rate)] followed by [copyToChannel]; a
    buffer of zero frames is refused by the host. *)
Definition createBuffer (float32 : list Q) (rate : Z) : result AudioBuffer :=
  match float32 with
  | [] => Throw NotSupportedError
  | _ => Ok {| channelData := float32; sampleRate := rate |}
  end.

(** The part of [LiveServerMessage] the handler reads:
    [serverContent?.modelTurn?.parts?.[0]?.inlineData?.data] and
    [serverContent?.modelTurn?.parts?.[0]?.text]. *)
Record LiveServerMessage : Type := {
  inlineData : option string;
  text : option string
}.

(** Calls the component makes on its collaborators, in program order. *)
Inductive Effect : Type :=
| Connect (cfg : LiveConnectConfig)
| SendRealtimeInput (mimeType : string) (data : string)
| SourceStart (h : nat) (buffer : AudioBuffer) (when : Q)
| SourceStop (h : nat)
| ContextClose (c : WhichContext)
| ConsoleError.

(** Variables of the component instance: the [useState] and [useRef]
    cells, the closure variables of the effect, and what the collaborators
    hold. *)
Record State : Type := {
  mounted : bool;
  status : Status;
  inputContext : option ContextState;     (* inputContextRef.current *)
  outputContext : option ContextState;    (* outputContextRef.current *)
  nextStartTime : Q;                      (* nextStartTimeRef.current *)
  sources : list nat;                     (* sourcesRef.current, in insertion order *)
  stream : bool;                          (* microphone stream acquired *)
  transport : Transport;
  capturing : bool;                       (* processor.onaudioprocess installed *)
  awaiting : list AudioBuffer;            (* onmessage calls suspended at the await *)
  nextHandle : nat;                       (* identity of the next source node *)
  effects : list Effect
}.

Definition set_mounted (v : bool) (s : State) : State :=
  {| mounted := v; status := status s; inputContext := inputContext s;
     outputContext := outputContext s; nextStartTime := nextStartTime s;
     sources := sources s; stream := stream s; transport := transport s;
     capturing := capturing s; awaiting := awaiting s;
     nextHandle := nextHandle s; effects := effects s |}.

Definition setStatus (v : Status) (s : State) : State :=
  {| mounted := mounted s; status := v; inputContext := inputContext s;
     outputContext := outputContext s; nextStartTime := nextStartTime s;
     sources := sources s; stream := stream s; transport := transport s;
     capturing := capturing s; awaiting := awaiting s;
     nextHandle := nextHandle s; effects := effects s |}.

Definition set_transport (v : Transport) (s : State) : State :=
  {| mounted := mounted s; status := status s; inputContext := inputContext s;
     outputContext := outputContext s; nextStartTime := nextStartTime s;
     sources := sources s; stream := stream s; transport := v;
     capturing := capturing s; awaiting := awaiting s;
     nextHandle := nextHandle s; effects := effects s |}.

Definition set_sources (v : list nat) (s : State) : State :=
  {| mounted := mounted s; status := status s; inputContext := inputContext s;
     outputContext := outputContext s; nextStartTime := nextStartTime s;
     sources := v; stream := stream s; transport := transport s;
     capturing := capturing s; awaiting := awaiting s;
     nextHandle := nextHandle s; effects := effects s |}.

Definition set_awaiting (v : list AudioBuffer) (s : State) : State :=
  {| mounted := mounted s; status := status s; inputContext := inputContext s;
     outputContext := outputContext s; nextStartTime := nextStartTime s;
     sources := sources s; stream := stream s; transport := transport s;
     capturing := capturing s; awaiting := v;
     nextHandle := nextHandle s; effects := effects s |}.

(** Append a call to the record of effects. *)
Definition emit (e : Effect) (s : State) : State :=
  {| mounted := mounted s; status := status s; inputContext := inputContext s;
     outputContext := outputContext s; nextStartTime := nextStartTime s;
     sources := sources s; stream := stream s; transport := transport s;
     capturing := capturing s; awaiting := awaiting s;
     nextHandle := nextHandle s; effects := effects s ++ [e] |}.

(** [ref.current?.close()] *)
Definition close_context (c : WhichContext) (s : State) : State :=
  match c with
  | InputContext =>
      match inputContext s with
      | None => s
      | Some _ =>
          emit (ContextClose InputContext)
            {| mounted := mounted s; status := status s;
               inputContext := Some ContextClosed;
               outputContext := outputContext s; nextStartTime := nextStartTime s;
               sources := sources s; stream := stream s; transport := transport s;
               capturing := capturing s; awaiting := awaiting s;
               nextHandle := nextHandle s; effects := effects s |}
      end
  | OutputContext =>
      match outputContext s with
      | None => s
      | Some _ =>
          emit (ContextClose OutputContext)
            {| mounted := mounted s; status := status s;
               inputContext := inputContext s;
               outputContext := Some ContextClosed; nextStartTime := nextStartTime s;
               sources := sources s; stream := stream s; transport := transport s;
               capturing := capturing s; awaiting := awaiting s;
               nextHandle := nextHandle s; effects := effects s |}
      end
  end.

(** [sourcesRef.current.add(source)] on a set kept in insertion order. *)
Definition set_add (h : nat) (l : list nat) : list nat :=
  if existsb (Nat.eqb h) l then l else l ++ [h].

(** [sourcesRef.current.delete(source)] *)
Definition set_delete (h : nat) (l : list nat) : list nat :=
  filter (fun x => negb (Nat.eqb h x)) l.

(** [playAudio(buffer, ctx)] with [ctx.currentTime = now]. *)
Definition playAudio (buffer : AudioBuffer) (now : Q) (s : State) : State :=
  let source := nextHandle s in
  let start := Qmax now (nextStartTime s) in
  let s1 := emit (SourceStart source buffer start) s in
  {| mounted := mounted s1; status := status s1; inputContext := inputContext s1;
     outputContext := outputContext s1;
     nextStartTime := (start + duration buffer)%Q;
     sources := set_add source (sources s1);
     stream := stream s1; transport := transport s1;
     capturing := capturing s1; awaiting := awaiting s1;
     nextHandle := S source; effects := effects s1 |}.

(** The cleanup function returned by the effect (lines 107-113). *)
Definition cleanup (s : State) : State :=
  let s1 := set_mounted false s in
  let s2 := close_context InputContext s1 in
  let s3 := close_context OutputContext s2 in
  fold_left (fun acc h => emit (SourceStop h) acc) (sources s3) s3.


Definition set_capturing (v : bool) (s : State) : State :=
  {| mounted := mounted s; status := status s; inputContext := inputContext s;
     outputContext := outputContext s; nextStartTime := nextStartTime s;
     sources := sources s; stream := stream s; transport := transport s;
     capturing := v; awaiting := awaiting s;
     nextHandle := nextHandle s; effects := effects s |}.

Definition set_stream (v : bool) (s : State) : State :=
  {| mounted := mounted s; status := status s; inputContext := inputContext s;
     outputContext := outputContext s; nextStartTime := nextStartTime s;
     sources := sources s; stream := v; transport := transport s;
     capturing := capturing s; awaiting := awaiting s;
     nextHandle := nextHandle s; effects := effects s |}.

(** What the playback scheduler has handed to the output sink. *)
Record ScheduledPlayback : Type := {
  pb_start : Q;
  pb_end : Q
}.

Definition playback_of (e : Effect) : list ScheduledPlayback :=
  match e with
  | SourceStart _ b t => [{| pb_start := t; pb_end := (t + duration b)%Q |}]
  | _ => []
  end.

Definition playbacks (s : State) : list ScheduledPlayback :=
  flat_map playback_of (effects s).

(** Events that run code of the component. *)
Inductive Event : Type :=
| GetUserMediaResolved                 (* init continues after the await, lines 34-97 *)
| InitThrows                           (* the catch of init, lines 99-102 *)
| OnOpen
| OnMessage (msg : LiveServerMessage)  (* onmessage up to its await *)
| OnMessageResume (now : Q)            (* the oldest suspended onmessage continues *)
| OnClose
| OnError
| AudioProcess (inputData : list Q)    (* the capture source delivers a block *)
| SourceEnded (h : nat)                (* onended of a source node *)
| Unmount.                             (* the caller ends the session: cleanup runs *)

Section Component.

(** Host functions: [atob] ([None] when it raises InvalidCharacterError),
    and [btoa] applied to the binary string of a byte array. *)
Variable atob : string -> option (list Z).
Variable btoa : list Z -> string.

(** The [context] property of the component. *)
Variable context : option string.

(** [decodeAudio(base64, ctx)] (lines 127-143). *)
Definition decodeAudio (base64 : string) : result AudioBuffer :=
  match atob base64 with
  | None => Throw InvalidCharacterError
  | Some binaryString =>
      let bytes := map ToUint8 binaryString in
      match decodePCM16 bytes with
      | Throw e => Throw e
      | Ok float32 => createBuffer float32 24000
      end
  end.

(** State the component is in once the effect has run up to the first
    await of [init] (lines 11-33). *)
Definition mount : State := {|
  mounted := true;
  status := Connecting;
  inputContext := Some Running;
  outputContext := Some Running;
  nextStartTime := 0%Q;
  sources := [];
  stream := false;
  transport := NotConnected;
  capturing := false;
  awaiting := [];
  nextHandle := 0%nat;
  effects := []
|}.

(** Rest of the try block of [init]: the stream is held and the transport is
    asked to connect.  Nothing here looks at [mounted]. *)
Definition init_continue (s : State) : State :=
  set_transport Opening
    (emit (Connect (connect_config context)) (set_stream true s)).

(** The catch block of [init]. *)
Definition init_catch (s : State) : State :=
  setStatus Error (emit ConsoleError s).

(** [processor.onaudioprocess] (lines 54-67). *)
Definition onaudioprocess (inputData : list Q) (s : State) : State :=
  let pcm16 := floatTo16BitPCM inputData in
  let base64 := btoa (Uint8Array_of_Int16Array pcm16) in
  emit (SendRealtimeInput "audio/pcm;rate=16000" base64) s.

(** [onopen] (lines 51-71). *)
Definition onopen (s : State) : State :=
  let s1 := if mounted s then setStatus Connected s else s in
  set_capturing true s1.

(** [onmessage] up to the await of line 78: a message whose audio decodes
    leaves a continuation holding the buffer; a failing decode rejects the
    promise of the handler and nothing else of it runs. *)
Definition onmessage (msg : LiveServerMessage) (s : State) : State :=
  if negb (mounted s) then s
  else
    match inlineData msg with
    | Some audioData =>
        if truthy (Some audioData) then
          match decodeAudio audioData with
          | Ok buffer => set_awaiting (awaiting s ++ [buffer]) s
          | Throw _ => s
          end
        else s
    | None => s
    end.

(** [onmessage] after the await: line 79. *)
Definition onmessage_resume (now : Q) (s : State) : State :=
  match awaiting s with
  | [] => s
  | buffer :: rest => playAudio buffer now (set_awaiting rest s)
  end.

(** [onclose] *)
Definition onclose (s : State) : State :=
  if mounted s then setStatus Closed s else s.

(** [onerror] *)
Definition onerror (s : State) : State :=
  let s1 := emit ConsoleError s in
  if mounted s1 then setStatus Error s1 else s1.

(** [source.onended] *)
Definition onended (h : nat) (s : State) : State :=
  set_sources (set_delete h (sources s)) s.

Definition step (s : State) (e : Event) : State :=
  match e with
  | GetUserMediaResolved =>
      match transport s with
      | NotConnected => init_continue s
      | _ => s
      end
  | InitThrows => init_catch s
  | OnOpen => onopen (set_transport Open s)
  | OnMessage msg => onmessage msg s
  | OnMessageResume now => onmessage_resume now s
  | OnClose => onclose (set_transport TransportClosed s)
  | OnError => onerror s
  | AudioProcess inputData =>
      if capturing s then onaudioprocess inputData s else s
  | SourceEnded h => onended h s
  | Unmount => cleanup s
  end.

Definition run (evs : list Event) (s : State) : State :=
  fold_left step evs s.

End Component.

(** *** Vocabulary of the statements *)

(** Effects appended in one go. *)
Definition emits (es : list Effect) (s : State) : State :=
  fold_left (fun acc e => emit e acc) es s.

(** The close calls a cleanup makes: one per context found in the refs. *)
Definition context_closes (s : State) : list Effect :=
  (match inputContext s with Some _ => [ContextClose InputContext] | None => [] end)
  ++ (match outputContext s with Some _ => [ContextClose OutputContext] | None => [] end).

(** What [ref.current?.close()] leaves in a ref. *)
Definition closed_ref (c : option ContextState) : option ContextState :=
  match c with Some _ => Some ContextClosed | None => None end.

(** A state without its record of past calls. *)
Definition without_effects (s : State) : State :=
  {| mounted := mounted s; status := status s; inputContext := inputContext s;
     outputContext := outputContext s; nextStartTime := nextStartTime s;
     sources := sources s; stream := stream s; transport := transport s;
     capturing := capturing s; awaiting := awaiting s;
     nextHandle := nextHandle s; effects := [] |}.

(** Events whose handler writes the status. *)
Definition is_lifecycle (e : Event) : bool :=
  match e with
  | OnOpen | OnClose | OnError | InitThrows => true
  | _ => false
  end.

Definition is_InitThrows (e : Event) : bool :=
  match e with InitThrows => true | _ => false end.

Definition no_overlap (A B : ScheduledPlayback) : Prop :=
  (pb_end A <= pb_start B)%Q.

(** What the scheduler keeps true: buffers waiting to be played have a
    duration, nothing scheduled ends after the cursor, scheduled playbacks
    do not overlap, and the cursor is the end of the last one. *)
Definition scheduler_inv (s : State) : Prop :=
  (forall b, In b (awaiting s) -> (0 <= duration b)%Q)
  /\ (forall A, In A (playbacks s) -> (pb_end A <= nextStartTime s)%Q)
  /\ ForallOrdPairs no_overlap (playbacks s)
  /\ (forall earlier A, playbacks s = earlier ++ [A] -> nextStartTime s = pb_end A).

End Session.

(** ** Concrete inputs *)

Import Codec Session.

Definition note_x : option string := Some "Note X"%string.

(** Four zero bytes: two silent samples. *)
Definition two_samples : LiveServerMessage :=
  {| inlineData := Some "AAAAAA=="%string; text := None |}.

(** Text that is not base64. *)
Definition bad_text : LiveServerMessage :=
  {| inlineData := Some "A!D/"%string; text := None |}.

(** Three bytes: not a whole number of samples. *)
Definition odd_bytes : LiveServerMessage :=
  {| inlineData := Some "AID/"%string; text := None |}.

Definition silence2 : AudioBuffer :=
  {| channelData := [0 / 32768; 0 / 32768]%Q; sampleRate := 24000 |}.

(** * Properties *)

(** Case analysis on every match of the goal. *)
Ltac break_match :=
  repeat match goal with
         | |- context [match ?x with _ => _ end] => destruct x eqn:?; simpl
         end.

(** ** Host text encoding: sanity of the base64 instance *)

Example b64_1 : Base64.btoa [0; 128; 255; 127] = "AID/fw=="%string.
Proof. reflexivity. Qed.
Example b64_2 : Base64.atob "AID/fw=="%string = Some [0; 128; 255; 127].
Proof. reflexivity. Qed.
Example b64_3 : Base64.atob "AID/f"%string = None.
Proof. reflexivity. Qed.
Example b64_4 : Base64.atob "A!D/"%string = None.
Proof. reflexivity. Qed.
Example b64_5 : Base64.atob "AID/"%string = Some [0;128;255].
Proof. reflexivity. Qed.
Example b64_6 : Base64.btoa [72; 105] = "SGk="%string.
Proof. reflexivity. Qed.

(** ** SampleCodec *)

Lemma Qtrunc_floor q : (0 <= q)%Q -> Qtrunc q = Qfloor q.
Proof.
  destruct q as [n d]; unfold Qle, Qtrunc, Qfloor; simpl; intros H.
  apply Z.quot_div_nonneg; lia.
Qed.

Lemma Qtrunc_ceiling q : (q <= 0)%Q -> Qtrunc q = Qceiling q.
Proof.
  destruct q as [n d]; unfold Qle, Qtrunc, Qceiling, Qfloor; simpl; intros H.
  rewrite <- (Z.opp_involutive n) at 1.
  rewrite Z.quot_opp_l by lia.
  f_equal. apply Z.quot_div_nonneg; lia.
Qed.

(** Truncation does not depend on the representation of the rational. *)
Lemma Qtrunc_comp q q' : (q == q')%Q -> Qtrunc q = Qtrunc q'.
Proof.
  intros E. destruct (Qlt_le_dec q 0) as [Hneg | Hpos].
  - rewrite !Qtrunc_ceiling by lra. apply Qceiling_comp, E.
  - rewrite !Qtrunc_floor by lra. apply Qfloor_comp, E.
Qed.

Lemma clamp_bounds x : (-1 <= clamp x <= 1)%Q.
Proof.
  unfold clamp. split.
  - apply Q.le_max_l.
  - apply Q.max_lub; [lra | apply Q.le_min_l].
Qed.

Lemma clamp_inside x : (-1 <= x <= 1)%Q -> (clamp x == x)%Q.
Proof.
  intros [H1 H2]. unfold clamp.
  rewrite (Q.min_r 1 x) by exact H2.
  apply Q.max_r; exact H1.
Qed.

Lemma clamp_below x : (x < -1)%Q -> (clamp x == -1)%Q.
Proof.
  intros H. unfold clamp. apply Q.max_l.
  apply Q.min_le_iff. right. lra.
Qed.

Lemma clamp_above x : (1 < x)%Q -> (clamp x == 1)%Q.
Proof.
  intros H. unfold clamp.
  rewrite (Q.min_l 1 x) by lra.
  apply Q.max_r. lra.
Qed.

Lemma scaled_range s :
  (-1 <= s <= 1)%Q ->
  -32768 <= Qtrunc (if Qlt_le_dec s 0 then s * 32768 else s * 32767)%Q <= 32767.
Proof.
  intros [Hlo Hhi]. destruct (Qlt_le_dec s 0) as [Hneg | Hpos].
  - rewrite Qtrunc_ceiling by lra.
    assert (H1 : Qceiling (-32768) <= Qceiling (s * 32768)%Q)
      by (apply Qceiling_resp_le; lra).
    assert (H2 : Qceiling (s * 32768)%Q <= Qceiling 0)
      by (apply Qceiling_resp_le; lra).
    change (Qceiling (-32768)) with (-32768) in H1.
    change (Qceiling 0) with 0 in H2. lia.
  - rewrite Qtrunc_floor by lra.
    assert (H1 : Qfloor 0 <= Qfloor (s * 32767)%Q)
      by (apply Qfloor_resp_le; lra).
    assert (H2 : Qfloor (s * 32767)%Q <= Qfloor 32767)
      by (apply Qfloor_resp_le; lra).
    change (Qfloor 0) with 0 in H1.
    change (Qfloor 32767) with 32767 in H2. lia.
Qed.

Lemma ToInt16_in_range q :
  -32768 <= Qtrunc q <= 32767 -> ToInt16 q = Qtrunc q.
Proof.
  intros H. unfold ToInt16. cbv zeta.
  destruct (32768 <=? Qtrunc q mod 65536) eqn:E;
    [apply Z.leb_le in E | apply Z.leb_gt in E];
    Z.div_mod_to_equations; lia.
Qed.

Lemma sample_to_int16_range x : -32768 <= sample_to_int16 x <= 32767.
Proof.
  unfold sample_to_int16. cbv zeta.
  pose proof (scaled_range (clamp x) (clamp_bounds x)) as H.
  rewrite ToInt16_in_range; exact H.
Qed.

Lemma int16_bytes_spec v :
  int16_bytes v = [v mod 256; (v / 256) mod 256].
Proof.
  unfold int16_bytes. cbv zeta.
  change 255 with (Z.ones 8).
  rewrite Z.land_ones by lia.
  rewrite Z.shiftr_div_pow2 by lia.
  change (2 ^ 8) with 256.
  f_equal; [| f_equal]; Z.div_mod_to_equations; lia.
Qed.

Lemma lor_shiftl_bytes b0 b1 :
  0 <= b0 < 256 -> Z.lor b0 (Z.shiftl b1 8) = b0 + 256 * b1.
Proof.
  intros H.
  assert (Hd : Z.land b0 (Z.shiftl b1 8) = 0).
  { apply Z.bits_inj'. intros n Hn.
    rewrite Z.land_spec, Z.bits_0.
    destruct (Z.ltb_spec n 8).
    - rewrite (Z.shiftl_spec_low b1 8 n) by lia. apply andb_false_r.
    - replace (Z.testbit b0 n) with false; [reflexivity|].
      symmetry. apply Z.bits_above_log2; [lia|].
      destruct (Z.eq_dec b0 0) as [->|]; [simpl; lia|].
      apply Z.lt_le_trans with 8; [|lia].
      apply Z.log2_lt_pow2; lia. }
  rewrite <- Z.lxor_lor by exact Hd.
  rewrite <- Z.add_nocarry_lxor by exact Hd.
  rewrite Z.shiftl_mul_pow2 by lia. change (2 ^ 8) with 256. lia.
Qed.

Lemma int16_of_bytes_spec b0 b1 :
  0 <= b0 < 256 -> 0 <= b1 < 256 ->
  int16_of_bytes b0 b1 =
    if b0 + 256 * b1 <? 32768 then b0 + 256 * b1 else b0 + 256 * b1 - 65536.
Proof.
  intros H0 H1. unfold int16_of_bytes. cbv zeta.
  rewrite lor_shiftl_bytes by exact H0.
  destruct (32768 <=? b0 + 256 * b1) eqn:E1;
    destruct (b0 + 256 * b1 <? 32768) eqn:E2; try reflexivity;
    [apply Z.leb_le in E1; apply Z.ltb_lt in E2
    | apply Z.leb_gt in E1; apply Z.ltb_ge in E2]; lia.
Qed.

Lemma int16_bytes_roundtrip v :
  -32768 <= v <= 32767 ->
  int16_slots (int16_bytes v) = [v].
Proof.
  intros H. rewrite int16_bytes_spec. simpl. f_equal.
  rewrite int16_of_bytes_spec
    by (Z.div_mod_to_equations; lia).
  destruct (v mod 256 + 256 * (v / 256 mod 256) <? 32768) eqn:E;
    [apply Z.ltb_lt in E | apply Z.ltb_ge in E];
    Z.div_mod_to_equations; lia.
Qed.

Lemma Uint8Array_length pcm16 :
  length (Uint8Array_of_Int16Array pcm16) = (2 * length pcm16)%nat.
Proof.
  unfold Uint8Array_of_Int16Array.
  induction pcm16 as [|v l IH]; [reflexivity|].
  change (flat_map int16_bytes (v :: l))
    with (int16_bytes v ++ flat_map int16_bytes l).
  rewrite length_app, IH. simpl. lia.
Qed.

Lemma Uint8Array_nth pcm16 : forall i v,
  nth_error pcm16 i = Some v ->
  nth_error (Uint8Array_of_Int16Array pcm16) (2 * i) = Some (v mod 256)
  /\ nth_error (Uint8Array_of_Int16Array pcm16) (2 * i + 1)
     = Some ((v / 256) mod 256).
Proof.
  induction pcm16 as [|w l IH]; intros [|i] v H; simpl in H; try discriminate.
  - injection H as ->. unfold Uint8Array_of_Int16Array.
    change (flat_map int16_bytes (v :: l))
      with (int16_bytes v ++ flat_map int16_bytes l).
    rewrite int16_bytes_spec. split; reflexivity.
  - destruct (IH i v H) as [H0 H1].
    unfold Uint8Array_of_Int16Array in *.
    change (flat_map int16_bytes (w :: l))
      with (int16_bytes w ++ flat_map int16_bytes l).
    rewrite int16_bytes_spec.
    replace (2 * S i)%nat with (S (S (2 * i))) by lia.
    replace (S (S (2 * i)) + 1)%nat with (S (S (2 * i + 1))) by lia.
    split; simpl; assumption.
Qed.

(** C5: [encodePCM16] clamps every sample to [-1, 1], scales a negative
    value by 32768 and a non-negative one by 32767 into the signed 16 bit
    range, and emits the result as two little-endian bytes: two bytes per
    sample, and nothing for an empty buffer.  Being a function, it is
    deterministic and has no effect. *)
Theorem encodePCM16_spec (samples : list Q) :
  length (encodePCM16 samples) = (2 * length samples)%nat
  /\ (samples = [] -> encodePCM16 samples = [])
  /\ forall i x, nth_error samples i = Some x ->
     exists s v,
       ((x < -1 -> s == -1) /\ (1 < x -> s == 1) /\ (-1 <= x <= 1 -> s == x))%Q
       /\ ((s < 0)%Q -> v = Qtrunc (s * 32768))
       /\ ((0 <= s)%Q -> v = Qtrunc (s * 32767))
       /\ -32768 <= v <= 32767
       /\ nth_error (encodePCM16 samples) (2 * i) = Some (v mod 256)
       /\ nth_error (encodePCM16 samples) (2 * i + 1) = Some ((v / 256) mod 256).
Proof.
  split; [|split].
  - unfold encodePCM16. rewrite Uint8Array_length.
    unfold floatTo16BitPCM. rewrite length_map. reflexivity.
  - intros ->. reflexivity.
  - intros i x Hx.
    exists (clamp x), (sample_to_int16 x).
    split; [|split; [|split; [|split]]].
    + split; [apply clamp_below | split; [apply clamp_above | apply clamp_inside]].
    + intros Hs. unfold sample_to_int16. cbv zeta.
      pose proof (scaled_range (clamp x) (clamp_bounds x)) as Hr.
      rewrite ToInt16_in_range by exact Hr.
      destruct (Qlt_le_dec (clamp x) 0); [reflexivity | lra].
    + intros Hs. unfold sample_to_int16. cbv zeta.
      pose proof (scaled_range (clamp x) (clamp_bounds x)) as Hr.
      rewrite ToInt16_in_range by exact Hr.
      destruct (Qlt_le_dec (clamp x) 0); [lra | reflexivity].
    + apply sample_to_int16_range.
    + apply Uint8Array_nth. unfold floatTo16BitPCM.
      rewrite nth_error_map, Hx. reflexivity.
Qed.

Lemma list_pair_ind (A : Type) (P : list A -> Prop) :
  P [] -> (forall a, P [a]) -> (forall a b l, P l -> P (a :: b :: l)) ->
  forall l, P l.
Proof.
  intros H0 H1 H2 l.
  assert (H : P l /\ forall a, P (a :: l)).
  { induction l as [|b l [IH1 IH2]]; split; auto. }
  exact (proj1 H).
Qed.

Lemma even_mod2 n : Nat.even n = true <-> Nat.modulo n 2 = 0%nat.
Proof.
  rewrite Nat.even_spec. split.
  - intros [k ->]. rewrite Nat.mul_comm. apply Nat.Div0.mod_mul.
  - intros H. exists (Nat.div n 2).
    pose proof (Nat.div_mod_eq n 2). lia.
Qed.

Lemma int16_slots_length bytes :
  Nat.modulo (length bytes) 2 = 0%nat ->
  (2 * length (int16_slots bytes) = length bytes)%nat.
Proof.
  induction bytes as [| a | a b l IH] using list_pair_ind; intros H.
  - reflexivity.
  - discriminate.
  - change (length (a :: b :: l)) with (2 + length l)%nat in *.
    change (int16_slots (a :: b :: l))
      with (int16_of_bytes a b :: int16_slots l).
    replace (2 + length l)%nat with (length l + 1 * 2)%nat in H by lia.
    rewrite Nat.Div0.mod_add in H.
    specialize (IH H). simpl length. lia.
Qed.

Lemma int16_slots_nth bytes : forall i b0 b1,
  nth_error bytes (2 * i) = Some b0 ->
  nth_error bytes (2 * i + 1) = Some b1 ->
  nth_error (int16_slots bytes) i = Some (int16_of_bytes b0 b1).
Proof.
  induction bytes as [| a | a b l IH] using list_pair_ind; intros i b0 b1 H0 H1.
  - destruct i; discriminate.
  - destruct i; simpl in *; try discriminate.
    replace (i + S (i + 0))%nat with (S (2 * i)) in H0 by lia.
    simpl in H0. destruct (2 * i)%nat; discriminate.
  - destruct i as [|i].
    + simpl in *. congruence.
    + replace (2 * S i)%nat with (S (S (2 * i))) in H0 by lia.
      replace (2 * S i + 1)%nat with (S (S (2 * i + 1))) in H1 by lia.
      simpl in H0, H1. simpl. apply IH; assumption.
Qed.

(** C6: [decodePCM16] fails (the host raises a RangeError) exactly when the
    number of bytes is odd; otherwise it returns one float per pair of
    bytes, the signed 16 bit value of the pair divided by 32768. *)
Theorem decodePCM16_spec (bytes : list Z) :
  (decodePCM16 bytes = Throw RangeError <-> Nat.modulo (length bytes) 2 <> 0%nat)
  /\ (Nat.modulo (length bytes) 2 = 0%nat ->
      exists floats,
        decodePCM16 bytes = Ok floats
        /\ (2 * length floats = length bytes)%nat
        /\ forall i b0 b1,
             nth_error bytes (2 * i) = Some b0 ->
             nth_error bytes (2 * i + 1) = Some b1 ->
             0 <= b0 < 256 -> 0 <= b1 < 256 ->
             let u := b0 + 256 * b1 in
             nth_error floats i
             = Some (inject_Z (if u <? 32768 then u else u - 65536) / 32768)%Q).
Proof.
  unfold decodePCM16, Int16Array_of_buffer.
  destruct (Nat.even (length bytes)) eqn:E.
  - apply even_mod2 in E. split.
    + split; [discriminate | intros H; contradiction].
    + intros _. exists (map int16_to_float (int16_slots bytes)).
      split; [reflexivity | split].
      * rewrite length_map. apply int16_slots_length, E.
      * intros i b0 b1 H0 H1 R0 R1.
        rewrite nth_error_map, (int16_slots_nth bytes i b0 b1 H0 H1).
        simpl. unfold int16_to_float.
        rewrite int16_of_bytes_spec by assumption. reflexivity.
  - assert (Hodd : Nat.modulo (length bytes) 2 <> 0%nat).
    { intros H. apply even_mod2 in H. congruence. }
    split.
    + split; [intros _; exact Hodd | intros _; reflexivity].
    + intros H. contradiction.
Qed.

Lemma roundtrip_sample x :
  (-1 <= x <= 1)%Q ->
  (Qabs (int16_to_float (sample_to_int16 x) - x) < 2 / 32768)%Q.
Proof.
  intros Hx.
  pose proof (clamp_inside x Hx) as Hs.
  pose proof (clamp_bounds x) as Hb.
  unfold sample_to_int16. cbv zeta.
  rewrite ToInt16_in_range by (apply scaled_range, Hb).
  unfold int16_to_float.
  apply Qabs_Qlt_condition.
  unfold Qdiv. change (/ 32768)%Q with (1 # 32768)%Q.
  destruct (Qlt_le_dec (clamp x) 0) as [Hneg | Hpos].
  - rewrite Qtrunc_ceiling by lra.
    pose proof (Qle_ceiling (clamp x * 32768)) as H1.
    pose proof (Qceiling_lt (clamp x * 32768)) as H2.
    unfold Z.sub in H2.
    rewrite inject_Z_plus in H2. change (inject_Z (- (1))) with (-1)%Q in H2.
    set (v := inject_Z (Qceiling (clamp x * 32768))) in *. clearbody v.
    lra.
  - rewrite Qtrunc_floor by lra.
    pose proof (Qfloor_le (clamp x * 32767)) as H1.
    pose proof (Qlt_floor (clamp x * 32767)) as H2.
    rewrite inject_Z_plus in H2. change (inject_Z 1) with 1%Q in H2.
    set (v := inject_Z (Qfloor (clamp x * 32767))) in *. clearbody v.
    lra.
Qed.

Lemma int16_slots_bytes pcm16 :
  Forall (fun v => -32768 <= v <= 32767) pcm16 ->
  int16_slots (Uint8Array_of_Int16Array pcm16) = pcm16.
Proof.
  unfold Uint8Array_of_Int16Array.
  induction 1 as [|v l Hv _ IH]; [reflexivity|].
  change (flat_map int16_bytes (v :: l))
    with (int16_bytes v ++ flat_map int16_bytes l).
  pose proof (int16_bytes_roundtrip v Hv) as Hr.
  rewrite int16_bytes_spec in *. simpl in *.
  injection Hr as Hr. rewrite Hr, IH. reflexivity.
Qed.

Lemma decode_encode samples :
  decodePCM16 (encodePCM16 samples)
  = Ok (map (fun x => int16_to_float (sample_to_int16 x)) samples).
Proof.
  unfold decodePCM16, Int16Array_of_buffer, encodePCM16.
  rewrite Uint8Array_length.
  replace (Nat.even (2 * length (floatTo16BitPCM samples))) with true
    by (symmetry; apply even_mod2; rewrite Nat.mul_comm; apply Nat.Div0.mod_mul).
  rewrite int16_slots_bytes.
  - unfold floatTo16BitPCM. rewrite map_map. reflexivity.
  - unfold floatTo16BitPCM. apply Forall_map, Forall_forall.
    intros x _. apply sample_to_int16_range.
Qed.

(** C2, amended: for samples in [-1, 1], decoding the encoding gives a
    buffer of the same length in which every sample differs from the
    original by less than two quantization steps, 2/32768. *)
Theorem roundtrip_within_two_steps (samples : list Q) :
  Forall (fun x => -1 <= x <= 1)%Q samples ->
  exists decoded,
    decodePCM16 (encodePCM16 samples) = Ok decoded
    /\ length decoded = length samples
    /\ forall i x x',
         nth_error samples i = Some x -> nth_error decoded i = Some x' ->
         (Qabs (x' - x) < 2 / 32768)%Q.
Proof.
  intros Hall. eexists. split; [apply decode_encode | split].
  - apply length_map.
  - intros i x x' Hx Hx'.
    rewrite nth_error_map, Hx in Hx'. injection Hx' as <-.
    apply roundtrip_sample.
    rewrite Forall_forall in Hall. apply Hall.
    eapply nth_error_In, Hx.
Qed.

Lemma roundtrip_within_two_steps_witness :
  exists decoded,
    decodePCM16 (encodePCM16 [1 # 2; - (1 # 4)]%Q) = Ok decoded
    /\ length decoded = 2%nat
    /\ forall i x x',
         nth_error [1 # 2; - (1 # 4)]%Q i = Some x -> nth_error decoded i = Some x' ->
         (Qabs (x' - x) < 2 / 32768)%Q.
Proof.
  apply (roundtrip_within_two_steps [1 # 2; - (1 # 4)]%Q).
  repeat constructor; discriminate.
Defined.

(** C2 as stated fails: the sample 65535/65536 is encoded as 32766 and
    decoded as 32766/32768, one and a half steps below it. *)
Lemma roundtrip_one_step_counterexample :
  (-1 <= 65535 # 65536 <= 1)%Q
  /\ exists x',
       decodePCM16 (encodePCM16 [65535 # 65536]%Q) = Ok [x']
       /\ ~ (Qabs (x' - (65535 # 65536)) <= 1 / 32768)%Q.
Proof.
  split; [split; discriminate|].
  eexists. split; [vm_compute; reflexivity|].
  vm_compute. intros H. apply H. reflexivity.
Qed.

(** ** Session *)

Lemma playbacks_playAudio b now s :
  playbacks (playAudio b now s)
  = playbacks s
    ++ [{| pb_start := Qmax now (nextStartTime s);
           pb_end := (Qmax now (nextStartTime s) + duration b)%Q |}].
Proof.
  unfold playAudio, playbacks. simpl. rewrite flat_map_app. simpl. reflexivity.
Qed.

Lemma nextStartTime_playAudio b now s :
  nextStartTime (playAudio b now s) = (Qmax now (nextStartTime s) + duration b)%Q.
Proof. reflexivity. Qed.

Lemma cleanup_stops l s :
  fold_left (fun acc h => emit (SourceStop h) acc) l s = emits (map SourceStop l) s.
Proof.
  revert s. induction l as [|h l IH]; intros s; [reflexivity|].
  simpl. rewrite IH. reflexivity.
Qed.

Lemma emits_eq es s :
  emits es s =
  {| mounted := mounted s; status := status s; inputContext := inputContext s;
     outputContext := outputContext s; nextStartTime := nextStartTime s;
     sources := sources s; stream := stream s; transport := transport s;
     capturing := capturing s; awaiting := awaiting s;
     nextHandle := nextHandle s; effects := effects s ++ es |}.
Proof.
  revert s. induction es as [|e es IH]; intros s.
  - destruct s; simpl. rewrite app_nil_r. reflexivity.
  - simpl. rewrite IH. simpl. rewrite <- app_assoc. reflexivity.
Qed.

Lemma cleanup_eq s :
  cleanup s =
  {| mounted := false; status := status s;
     inputContext := closed_ref (inputContext s);
     outputContext := closed_ref (outputContext s);
     nextStartTime := nextStartTime s;
     sources := sources s; stream := stream s; transport := transport s;
     capturing := capturing s; awaiting := awaiting s;
     nextHandle := nextHandle s;
     effects := effects s ++ context_closes s ++ map SourceStop (sources s) |}.
Proof.
  unfold cleanup. rewrite cleanup_stops, emits_eq.
  destruct s as [m st ic oc t src str tr cap aw nh eff].
  unfold context_closes.
  destruct ic, oc; simpl; rewrite <- ?app_assoc; simpl; try reflexivity.
  all: rewrite ?app_nil_r; reflexivity.
Qed.


Section SessionFacts.

Variable atob : string -> option (list Z).
Variable btoa : list Z -> string.
Variable context : option string.

Local Abbreviation step := (Session.step atob btoa context).
Local Abbreviation run := (Session.run atob btoa context).
Local Abbreviation decodeAudio := (Session.decodeAudio atob).

Lemma run_app evs1 evs2 s : run (evs1 ++ evs2) s = run evs2 (run evs1 s).
Proof. unfold Session.run. apply fold_left_app. Qed.

Lemma run_cons e evs s : run (e :: evs) s = run evs (step s e).
Proof. reflexivity. Qed.

Lemma sources_ended l : forall s,
  sources (run (map SourceEnded l) s)
  = filter (fun x => negb (existsb (fun h => Nat.eqb h x) l)) (sources s).
Proof.
  induction l as [|h l IH]; intros s.
  - simpl. induction (sources s) as [|x xs IHx]; simpl; congruence.
  - simpl map. rewrite run_cons, IH. simpl.
    unfold set_delete. clear IH.
    induction (sources s) as [|x xs IHx]; simpl; [reflexivity|].
    destruct (Nat.eqb h x); simpl; [exact IHx|].
    destruct (existsb (fun h0 => Nat.eqb h0 x) l); simpl; congruence.
Qed.

Lemma filter_self (l : list nat) :
  filter (fun x => negb (existsb (fun h => Nat.eqb h x) l)) l = [].
Proof.
  assert (H : forall l', incl l' l ->
            filter (fun x => negb (existsb (fun h => Nat.eqb h x) l)) l' = []).
  { induction l' as [|x xs IH]; intros Hincl; [reflexivity|].
    simpl.
    replace (existsb (fun h => Nat.eqb h x) l) with true.
    - simpl. apply IH. intros y Hy. apply Hincl. right. exact Hy.
    - symmetry. apply existsb_exists. exists x. split.
      + apply Hincl. left. reflexivity.
      + apply Nat.eqb_refl. }
  apply H, incl_refl.
Qed.

(** C3, amended: the teardown can run in any state, also before Connected.
    It clears the liveness flag, calls close once on each audio context that
    exists and stop once on each source of the active set, and leaves the
    transport, the microphone stream, the capture handler and the status as
    they are.  Run a second time it changes no state: it only repeats
    the calls. *)
Theorem cleanup_releases_contexts (s : State) :
  mounted (cleanup s) = false
  /\ inputContext (cleanup s) = closed_ref (inputContext s)
  /\ outputContext (cleanup s) = closed_ref (outputContext s)
  /\ effects (cleanup s)
     = effects s ++ context_closes s ++ map SourceStop (sources s)
  /\ transport (cleanup s) = transport s
  /\ stream (cleanup s) = stream s
  /\ capturing (cleanup s) = capturing s
  /\ status (cleanup s) = status s
  /\ without_effects (cleanup (cleanup s)) = without_effects (cleanup s).
Proof.
  rewrite !cleanup_eq. simpl. repeat split.
  unfold without_effects. simpl.
  destruct (inputContext s), (outputContext s); reflexivity.
Qed.

(** C8, amended: the teardown stops every handle of the active set, in
    order.  It does not touch the set nor the cursor: the set empties as
    the ended events of the stopped handles are delivered, and the cursor
    keeps its value. *)
Theorem cleanup_stops_sources (s : State) :
  effects (cleanup s)
  = effects s ++ context_closes s ++ map SourceStop (sources s)
  /\ sources (cleanup s) = sources s
  /\ nextStartTime (cleanup s) = nextStartTime s
  /\ sources (run (map SourceEnded (sources s)) (cleanup s)) = [].
Proof.
  repeat split; try (rewrite cleanup_eq; reflexivity).
  rewrite sources_ended, cleanup_eq. simpl. apply filter_self.
Qed.

Lemma status_step_other s e :
  is_lifecycle e = false -> status (step s e) = status s.
Proof.
  destruct e; simpl; try discriminate; intros _.
  - destruct (transport s); reflexivity.
  - unfold onmessage. break_match; reflexivity.
  - unfold onmessage_resume. destruct (awaiting s); reflexivity.
  - destruct (capturing s); reflexivity.
  - reflexivity.
  - rewrite cleanup_eq. reflexivity.
Qed.

Lemma mounted_step s e : mounted s = false -> mounted (step s e) = false.
Proof.
  intros H. destruct e; simpl.
  - destruct (transport s); simpl; assumption.
  - assumption.
  - rewrite H. assumption.
  - unfold onmessage. rewrite H. assumption.
  - unfold onmessage_resume. destruct (awaiting s); simpl; assumption.
  - unfold onclose. simpl. rewrite H. assumption.
  - unfold onerror. simpl. rewrite H. assumption.
  - destruct (capturing s); simpl; assumption.
  - assumption.
  - rewrite cleanup_eq. reflexivity.
Qed.

Lemma status_step_unmounted s e :
  mounted s = false -> is_InitThrows e = false -> status (step s e) = status s.
Proof.
  intros H He. destruct (is_lifecycle e) eqn:El.
  - destruct e; simpl in *; try discriminate.
    + rewrite H. reflexivity.
    + unfold onclose. simpl. rewrite H. reflexivity.
    + unfold onerror. simpl. rewrite H. reflexivity.
  - apply status_step_other, El.
Qed.

Lemma status_step_not_connecting s e :
  status s <> Connecting -> status (step s e) <> Connecting.
Proof.
  intros H. destruct (is_lifecycle e) eqn:El.
  - destruct e; simpl in *; try discriminate.
    + destruct (mounted s); simpl; [discriminate | exact H].
    + unfold onclose. simpl. destruct (mounted s); simpl; [discriminate | exact H].
    + unfold onerror. simpl. destruct (mounted s); simpl; [discriminate | exact H].
  - rewrite status_step_other by exact El. exact H.
Qed.

(** C9, amended: the status never returns to Connecting; only the
    open, close and error callbacks (and the failure of init) write it, so
    messages, capture blocks and close requests leave it unchanged; and once
    the session has been torn down no transport callback changes it.  While
    the session is live the callbacks write the status whatever it is. *)
Theorem status_transitions :
  (forall s e, status s <> Connecting -> status (step s e) <> Connecting)
  /\ (forall s e, is_lifecycle e = false -> status (step s e) = status s)
  /\ (forall evs s,
        mounted s = false -> forallb (fun e => negb (is_InitThrows e)) evs = true ->
        status (run evs s) = status s).
Proof.
  split; [exact status_step_not_connecting | split; [exact status_step_other |]].
  induction evs as [|e evs IH]; intros s Hm Hall; [reflexivity|].
  simpl in Hall. apply andb_prop in Hall. destruct Hall as [He Hall].
  rewrite run_cons, IH.
  - apply status_step_unmounted; [exact Hm|].
    destruct (is_InitThrows e); [discriminate | reflexivity].
  - apply mounted_step, Hm.
  - exact Hall.
Qed.

(** C7: a message whose audio fails to decode, whatever the failure
    (text that is not base64, an odd number of bytes), leaves the whole
    state as it was: the cursor is not advanced, nothing is scheduled or
    left waiting, the status is unchanged.  The events that follow are
    processed as if the message had not been delivered. *)
Theorem decode_failure_isolated (msg : LiveServerMessage) (audioData : string)
    (e : JsError) :
  inlineData msg = Some audioData ->
  decodeAudio audioData = Throw e ->
  (forall s, step s (OnMessage msg) = s)
  /\ (forall evs1 evs2 s,
        run (evs1 ++ OnMessage msg :: evs2) s = run (evs1 ++ evs2) s).
Proof.
  intros Hd Hf.
  assert (Hstep : forall s, step s (OnMessage msg) = s).
  { intros s. simpl. unfold onmessage. rewrite Hd, Hf.
    break_match; reflexivity. }
  split; [exact Hstep|].
  intros evs1 evs2 s. rewrite !run_app, run_cons, Hstep. reflexivity.
Qed.

Lemma decodeAudio_failures (base64 : string) :
  (atob base64 = None -> decodeAudio base64 = Throw InvalidCharacterError)
  /\ (forall binaryString,
        atob base64 = Some binaryString ->
        Nat.modulo (length binaryString) 2 <> 0%nat ->
        decodeAudio base64 = Throw RangeError).
Proof.
  unfold Session.decodeAudio. split.
  - intros ->. reflexivity.
  - intros b -> Hodd.
    unfold decodePCM16, Int16Array_of_buffer. rewrite length_map.
    destruct (Nat.even (length b)) eqn:E; [|reflexivity].
    exfalso. apply Hodd.
    apply Nat.even_spec in E. destruct E as [k ->].
    rewrite Nat.mul_comm. apply Nat.Div0.mod_mul.
Qed.

(** *** The scheduler *)


Lemma ForallOrdPairs_snoc (A : Type) (R : A -> A -> Prop) l x :
  ForallOrdPairs R l -> Forall (fun a => R a x) l -> ForallOrdPairs R (l ++ [x]).
Proof.
  induction 1 as [|a l Ha Hl IH]; intros Hx; simpl.
  - constructor; constructor.
  - inversion Hx as [|? ? Hax Hlx]; subst.
    constructor; [|apply IH, Hlx].
    apply Forall_app. split; [exact Ha | constructor; [exact Hax | constructor]].
Qed.

Lemma Qmax_late now c : (c < now)%Q -> Qmax now c = now.
Proof.
  intros H. unfold Qmax, GenericMinMax.gmax.
  destruct (Qcompare_spec now c) as [He | Hl | Hg]; try reflexivity.
  exfalso. apply (Qlt_irrefl c). apply Qlt_trans with now; assumption.
Qed.

Lemma duration_decoded float32 rate b :
  createBuffer float32 rate = Ok b -> 0 < rate -> (0 <= duration b)%Q.
Proof.
  destruct float32 as [|x xs]; [discriminate|].
  intros H Hr. injection H as <-. unfold duration. simpl channelData. simpl sampleRate.
  apply Qle_shift_div_l.
  - unfold Qlt. simpl. lia.
  - unfold Qle. simpl. lia.
Qed.

Lemma duration_decodeAudio a b : decodeAudio a = Ok b -> (0 <= duration b)%Q.
Proof.
  unfold Session.decodeAudio. destruct (atob a); [|discriminate].
  destruct (decodePCM16 _); [|discriminate].
  intros H. eapply duration_decoded; [exact H | lia].
Qed.

Lemma inv_playAudio b now s :
  (0 <= duration b)%Q -> scheduler_inv s -> scheduler_inv (playAudio b now s).
Proof.
  intros Hd (Haw & Hend & Hord & Hlast).
  pose proof (Q.le_max_r now (nextStartTime s)) as Hmax.
  unfold scheduler_inv.
  rewrite playbacks_playAudio, nextStartTime_playAudio.
  split; [exact Haw | split; [| split]].
  - intros A HA. apply in_app_or in HA. destruct HA as [HA | [<- | []]].
    + specialize (Hend A HA). lra.
    + simpl. lra.
  - apply ForallOrdPairs_snoc; [exact Hord|].
    apply Forall_forall. intros A HA. specialize (Hend A HA).
    unfold no_overlap. simpl. lra.
  - intros earlier A HA. apply app_inj_tail in HA. destruct HA as [_ <-].
    reflexivity.
Qed.

Lemma inv_same s s' :
  awaiting s' = awaiting s -> playbacks s' = playbacks s ->
  nextStartTime s' = nextStartTime s ->
  scheduler_inv s -> scheduler_inv s'.
Proof.
  unfold scheduler_inv. intros -> -> ->. exact (fun H => H).
Qed.

Lemma playbacks_stops l : flat_map playback_of (map SourceStop l) = [].
Proof. induction l; simpl; auto. Qed.

Lemma playbacks_cleanup s : playbacks (cleanup s) = playbacks s.
Proof.
  rewrite cleanup_eq. unfold playbacks. simpl.
  rewrite !flat_map_app, playbacks_stops.
  unfold context_closes.
  destruct (inputContext s), (outputContext s); simpl; rewrite ?app_nil_r; reflexivity.
Qed.

Lemma inv_step s e : scheduler_inv s -> scheduler_inv (step s e).
Proof.
  intros Hinv. destruct e; simpl.
  - destruct (transport s); try exact Hinv.
    eapply inv_same; [| | | exact Hinv]; try reflexivity.
    unfold init_continue, playbacks. simpl. rewrite flat_map_app. simpl.
    apply app_nil_r.
  - eapply inv_same; [| | | exact Hinv]; try reflexivity.
    unfold init_catch, playbacks. simpl. rewrite flat_map_app. simpl.
    apply app_nil_r.
  - eapply inv_same; [| | | exact Hinv];
      unfold onopen; simpl; destruct (mounted s); reflexivity.
  - unfold onmessage.
    destruct (negb (mounted s)); [exact Hinv|].
    destruct (inlineData msg) as [a|]; [|exact Hinv].
    destruct (truthy (Some a)); [|exact Hinv].
    destruct (Session.decodeAudio atob a) as [b|] eqn:Hb; [|exact Hinv].
    destruct Hinv as (Haw & Hrest). split; [|exact Hrest].
    simpl. intros b' Hb'. apply in_app_or in Hb'. destruct Hb' as [Hb' | [<- | []]].
    + apply Haw, Hb'.
    + eapply duration_decodeAudio, Hb.
  - unfold onmessage_resume. destruct (awaiting s) as [|b rest] eqn:Haw; [exact Hinv|].
    apply inv_playAudio.
    + destruct Hinv as (H & _). apply H. rewrite Haw. left. reflexivity.
    + destruct Hinv as (H & Hrest). split; [|exact Hrest].
      simpl. intros b' Hb'. apply H. rewrite Haw. right. exact Hb'.
  - eapply inv_same; [| | | exact Hinv];
      unfold onclose; simpl; destruct (mounted s); reflexivity.
  - eapply inv_same; [| | | exact Hinv];
      unfold onerror; simpl; destruct (mounted s); try reflexivity;
      unfold playbacks; simpl; rewrite flat_map_app; simpl; apply app_nil_r.
  - destruct (capturing s); [|exact Hinv].
    eapply inv_same; [| | | exact Hinv]; try reflexivity.
    unfold onaudioprocess, playbacks. simpl. rewrite flat_map_app. simpl.
    apply app_nil_r.
  - eapply inv_same; [| | | exact Hinv]; reflexivity.
  - eapply inv_same; [| | | exact Hinv];
      [rewrite cleanup_eq; reflexivity | apply playbacks_cleanup
      | rewrite cleanup_eq; reflexivity].
Qed.

Lemma inv_mount : scheduler_inv mount.
Proof.
  unfold scheduler_inv, mount, playbacks. simpl.
  split; [intros b [] | split; [intros A [] | split; [constructor |]]].
  intros [|x l] A H; discriminate.
Qed.

Lemma inv_run evs : forall s, scheduler_inv s -> scheduler_inv (run evs s).
Proof.
  induction evs as [|e evs IH]; intros s H; [exact H|].
  rewrite run_cons. apply IH, inv_step, H.
Qed.

(** C1: in every reachable state, the playback B that [playAudio] schedules
    after the last playback A starts at the maximum of the clock time and
    the end of A, hence not before A ends, and no two scheduled playbacks
    overlap.  Three chunks played at the same clock time t0, not before
    the cursor, start at t0, t0 + d1 and t0 + d1 + d2 with no gap.  A chunk
    that arrives after the cursor has passed starts at the clock time. *)
Theorem scheduler_ordering :
  (forall evs buffer now earlier A,
      playbacks (run evs mount) = earlier ++ [A] ->
      exists B,
        playbacks (playAudio buffer now (run evs mount))
        = playbacks (run evs mount) ++ [B]
        /\ pb_start B = Qmax now (pb_end A)
        /\ (pb_end A <= pb_start B)%Q)
  /\ (forall evs, ForallOrdPairs no_overlap (playbacks (run evs mount)))
  /\ (forall s b1 b2 b3 t0,
        (nextStartTime s <= t0)%Q ->
        (0 <= duration b1)%Q -> (0 <= duration b2)%Q ->
        exists B1 B2 B3,
          playbacks (playAudio b3 t0 (playAudio b2 t0 (playAudio b1 t0 s)))
          = playbacks s ++ [B1; B2; B3]
          /\ pb_start B1 == t0
          /\ pb_start B2 == t0 + duration b1
          /\ pb_start B3 == t0 + duration b1 + duration b2
          /\ pb_end B1 == pb_start B2
          /\ pb_end B2 == pb_start B3)
  /\ (forall s buffer now,
        (nextStartTime s < now)%Q ->
        effects (playAudio buffer now s)
        = effects s ++ [SourceStart (nextHandle s) buffer now]).
Proof.
  split; [|split; [|split]].
  - intros evs buffer now earlier A HA.
    destruct (inv_run evs mount inv_mount) as (_ & _ & _ & Hlast).
    rewrite playbacks_playAudio. eexists. split; [reflexivity|].
    rewrite (Hlast earlier A HA). simpl. split; [reflexivity|].
    apply Q.le_max_r.
  - intros evs. apply (inv_run evs mount inv_mount).
  - intros s b1 b2 b3 t0 Hc H1 H2.
    rewrite !playbacks_playAudio, !nextStartTime_playAudio.
    rewrite <- !app_assoc. simpl.
    do 3 eexists. split; [reflexivity|]. simpl.
    assert (E1 : Qmax t0 (nextStartTime s) == t0) by (apply Q.max_l; exact Hc).
    assert (E2 : Qmax t0 (Qmax t0 (nextStartTime s) + duration b1)
                 == t0 + duration b1).
    { rewrite Q.max_r by (rewrite E1; lra). rewrite E1. reflexivity. }
    assert (E3 : Qmax t0 (Qmax t0 (Qmax t0 (nextStartTime s) + duration b1)
                          + duration b2)
                 == t0 + duration b1 + duration b2).
    { rewrite Q.max_r by (rewrite E2; lra). rewrite E2. reflexivity. }
    repeat split.
    + exact E1.
    + exact E2.
    + exact E3.
    + rewrite E2, E1. reflexivity.
    + rewrite E3, E2. reflexivity.
  - intros s buffer now Hlate. unfold playAudio. simpl.
    rewrite Qmax_late by exact Hlate. reflexivity.
Qed.

End SessionFacts.

(** ** The system instruction *)

Lemma or_else_nonempty (s fallback : string) :
  s <> EmptyString -> or_else (Some s) fallback = s.
Proof.
  intros H. unfold or_else, truthy.
  destruct (String.eqb_spec s EmptyString); [contradiction | reflexivity].
Qed.

(** C10: an absent or empty context is replaced by the fixed default text in
    the system instruction of the configuration handed to the transport when
    it is opened; a non-empty context is embedded as it is. *)
Theorem system_instruction_context :
  systemInstruction (connect_config None)
  = (instruction_head ++ default_context ++ instruction_tail)%string
  /\ systemInstruction (connect_config (Some EmptyString))
     = (instruction_head ++ default_context ++ instruction_tail)%string
  /\ default_context
     = "The user is drifting in the void with no specific active note."%string
  /\ (forall c : string,
        c <> EmptyString ->
        systemInstruction (connect_config (Some c))
        = (instruction_head ++ c ++ instruction_tail)%string)
  /\ (forall atob btoa context,
        effects (step atob btoa context mount GetUserMediaResolved)
        = [Connect (connect_config context)]).
Proof.
  repeat split.
  intros c Hc. simpl. unfold instruction.
  rewrite or_else_nonempty by exact Hc. reflexivity.
Qed.

Lemma system_instruction_context_witness :
  systemInstruction (connect_config (Some "Note X"%string))
  = (instruction_head ++ "Note X" ++ instruction_tail)%string.
Proof.
  apply (proj1 (proj2 (proj2 (proj2 system_instruction_context)))).
  discriminate.
Defined.

(** ** Runs on concrete inputs *)

Example decode_two_samples :
  decodeAudio Base64.atob "AAAAAA=="%string = Ok silence2.
Proof. reflexivity. Qed.

Example decode_bad_text :
  decodeAudio Base64.atob "A!D/"%string = Throw InvalidCharacterError.
Proof. reflexivity. Qed.

Example decode_odd_bytes :
  decodeAudio Base64.atob "AID/"%string = Throw RangeError.
Proof. reflexivity. Qed.

Example odd_bytes_dropped :
  step Base64.atob Base64.btoa note_x
    (run Base64.atob Base64.btoa note_x [GetUserMediaResolved; OnOpen] mount)
    (OnMessage odd_bytes)
  = run Base64.atob Base64.btoa note_x [GetUserMediaResolved; OnOpen] mount.
Proof. reflexivity. Qed.

Example decode_no_frames :
  decodeAudio Base64.atob " "%string = Throw NotSupportedError.
Proof. reflexivity. Qed.

Example encode_half : encodePCM16 [1 # 2]%Q = [255; 63].
Proof. reflexivity. Qed.

Example encode_extremes :
  encodePCM16 [-(1); 1; 3; -(7 # 2); 0]%Q = [0; 128; 255; 127; 255; 127; 0; 128; 0; 0].
Proof. reflexivity. Qed.

(** The session of the end to end scenario: opened, one capture block of
    two samples sent, two chunks received back to back at time 5. *)
Example scenario :
  let s := run Base64.atob Base64.btoa note_x
             [GetUserMediaResolved; OnOpen; AudioProcess [1 # 2; -(1)]%Q;
              OnMessage two_samples; OnMessage two_samples;
              OnMessageResume 5; OnMessageResume 5; OnError] mount in
  status s = Error
  /\ sources s = [0; 1]%nat
  /\ effects s
     = [Connect (connect_config note_x);
        SendRealtimeInput "audio/pcm;rate=16000" "/z8AgA==";
        SourceStart 0 silence2 5;
        SourceStart 1 silence2 (5 + 2 / 24000);
        ConsoleError].
Proof. vm_compute. repeat split. Qed.

(** *** Teardown *)

(** C3 as stated fails: once the session is open and the caller closes it,
    the transport is still open and the microphone stream still held; the
    only calls the teardown made are the two context closes. *)
Lemma teardown_leaves_transport_open :
  let s := run Base64.atob Base64.btoa note_x
             [GetUserMediaResolved; OnOpen; Unmount] mount in
  mounted s = false
  /\ transport s = Open
  /\ stream s = true
  /\ effects s = [Connect (connect_config note_x);
                  ContextClose InputContext; ContextClose OutputContext].
Proof. vm_compute. repeat split. Qed.

(** C8 as stated fails: a chunk of two samples is scheduled at clock time 5,
    then the session is torn down.  The source is stopped, but it is still
    in the active set and the cursor still is the end of that chunk. *)
Lemma teardown_keeps_cursor_and_sources :
  let s := run Base64.atob Base64.btoa note_x
             [GetUserMediaResolved; OnOpen; OnMessage two_samples;
              OnMessageResume 5; Unmount] mount in
  sources s = [0%nat]
  /\ In (SourceStop 0) (effects s)
  /\ nextStartTime s == 5 + 2 / 24000
  /\ ~ nextStartTime s == 5.
Proof.
  vm_compute. repeat split; auto 10; discriminate.
Qed.

(** C9 as stated fails: an error of the transport followed by its close
    takes the status from Error to Closed, and a late open takes it to
    Connected. *)
Lemma error_then_close_changes_status :
  let s := run Base64.atob Base64.btoa note_x
             [GetUserMediaResolved; OnOpen; OnError] mount in
  status s = Error
  /\ status (step Base64.atob Base64.btoa note_x s OnClose) = Closed
  /\ status (step Base64.atob Base64.btoa note_x s OnOpen) = Connected.
Proof. vm_compute. repeat split. Qed.

(** C4 on the code: after the teardown a capture block is still encoded and
    sent, and an [onmessage] that passed its check before the teardown still
    schedules its buffer when it resumes. *)
Theorem capture_after_teardown_reaches_transport :
  let s := run Base64.atob Base64.btoa note_x
             [GetUserMediaResolved; OnOpen; Unmount] mount in
  let s' := run Base64.atob Base64.btoa note_x
              [GetUserMediaResolved; OnOpen; OnMessage two_samples; Unmount] mount in
  mounted s = false
  /\ effects (step Base64.atob Base64.btoa note_x s (AudioProcess [1 # 2]%Q))
     = effects s ++ [SendRealtimeInput "audio/pcm;rate=16000" "/z8="]
  /\ mounted s' = false
  /\ effects (step Base64.atob Base64.btoa note_x s' (OnMessageResume 5))
     = effects s' ++ [SourceStart 0 silence2 5].
Proof. vm_compute. repeat split. Qed.

(** The entry of [onmessage] is guarded: a message delivered after the
    teardown is ignored. *)
Lemma onmessage_after_teardown atob btoa context s msg :
  mounted s = false -> step atob btoa context s (OnMessage msg) = s.
Proof. intros H. simpl. unfold onmessage. rewrite H. reflexivity. Qed.

(** *** Instances of the theorems *)

Lemma scheduler_ordering_witness :
  exists B1 B2 B3,
    playbacks (playAudio silence2 5 (playAudio silence2 5 (playAudio silence2 5 mount)))
    = playbacks mount ++ [B1; B2; B3]
    /\ pb_start B1 == 5
    /\ pb_start B2 == 5 + duration silence2
    /\ pb_start B3 == 5 + duration silence2 + duration silence2
    /\ pb_end B1 == pb_start B2
    /\ pb_end B2 == pb_start B3.
Proof.
  apply (proj1 (proj2 (proj2
           (scheduler_ordering Base64.atob Base64.btoa note_x))));
    vm_compute; discriminate.
Defined.

Lemma encodePCM16_spec_witness :
  exists s v,
    ((1 # 2 < -1 -> s == -1) /\ (1 < 1 # 2 -> s == 1)
     /\ (-1 <= 1 # 2 <= 1 -> s == 1 # 2))%Q
    /\ ((s < 0)%Q -> v = Qtrunc (s * 32768))
    /\ ((0 <= s)%Q -> v = Qtrunc (s * 32767))
    /\ -32768 <= v <= 32767
    /\ nth_error (encodePCM16 [1 # 2]%Q) (2 * 0) = Some (v mod 256)
    /\ nth_error (encodePCM16 [1 # 2]%Q) (2 * 0 + 1) = Some ((v / 256) mod 256).
Proof.
  apply (proj2 (proj2 (encodePCM16_spec [1 # 2]%Q)) 0%nat (1 # 2)%Q).
  reflexivity.
Defined.

Lemma decodePCM16_spec_witness :
  exists floats,
    decodePCM16 [255; 63] = Ok floats
    /\ (2 * length floats = length [255; 63])%nat
    /\ forall i b0 b1,
         nth_error [255; 63] (2 * i) = Some b0 ->
         nth_error [255; 63] (2 * i + 1) = Some b1 ->
         0 <= b0 < 256 -> 0 <= b1 < 256 ->
         nth_error floats i
         = Some (inject_Z (if b0 + 256 * b1 <? 32768
                           then b0 + 256 * b1
                           else b0 + 256 * b1 - 65536) / 32768)%Q.
Proof.
  apply (proj2 (decodePCM16_spec [255; 63])). reflexivity.
Defined.

Lemma decode_failure_isolated_witness :
  step Base64.atob Base64.btoa note_x mount (OnMessage bad_text) = mount
  /\ run Base64.atob Base64.btoa note_x
       ([GetUserMediaResolved; OnOpen; OnMessage two_samples]
        ++ OnMessage bad_text :: [OnMessage two_samples; OnMessageResume 5]) mount
     = run Base64.atob Base64.btoa note_x
         ([GetUserMediaResolved; OnOpen; OnMessage two_samples]
          ++ [OnMessage two_samples; OnMessageResume 5]) mount.
Proof.
  pose proof (decode_failure_isolated Base64.atob Base64.btoa note_x
                bad_text "A!D/"%string InvalidCharacterError
                eq_refl eq_refl) as [H1 H2].
  split; [apply H1 | apply H2].
Defined.

Lemma status_transitions_witness :
  status (run Base64.atob Base64.btoa note_x [OnOpen; OnError; OnClose]
            (run Base64.atob Base64.btoa note_x
               [GetUserMediaResolved; Unmount] mount))
  = status (run Base64.atob Base64.btoa note_x
              [GetUserMediaResolved; Unmount] mount).
Proof.
  apply (proj2 (proj2 (status_transitions Base64.atob Base64.btoa note_x)));
    reflexivity.
Defined.
